(** * sushy-tools, libvirt-by-name driver: the identity-redirecting wrapper

    A shallow embedding of
    [sushy_tools/emulator/resources/systems/libvirtbynamedriver.py]:
    the decorator [wrapped_identity], its closure [identity_wrapper] and the
    [systems] property of the by-name driver, with the properties of the
    design document proved (or refuted) on them. *)

From stdpp Require Import gmap strings list fin_maps.
From Stdlib Require Import ZArith.

Open Scope string_scope.

(** ** Python values and exceptions *)

(** The values that travel through the accessors: identities are [str],
    results are strings, numbers, booleans, [None], tuples and lists;
    [VRef] stands for an object known only by reference (such as [self]). *)
#[warnings="-register-all"]
Inductive value : Type :=
  | VNone
  | VBool (b : bool)
  | VInt (n : Z)
  | VStr (s : string)
  | VList (l : list value)
  | VRef (n : nat).

(** Why binding a call's arguments to a function's parameters failed; each is
    a [TypeError] in Python. *)
Inductive bind_error : Type :=
  | UnexpectedKeyword
  | MultipleValues
  | TooManyPositional
  | MissingArgument.

(** Modelled from the spec: [AliasAccessError] is imported from
    [sushy_tools.error], which is not among the sources.  It "carries exactly
    one payload, the resolved canonical identifier (string)"; [str(err)] is
    that payload.  [Error] stands for an exception of any other class
    ([NotFound], [FishyError], a libvirt error, ...). *)
Inductive exn : Type :=
  | AliasAccessError (msg : string)
  | ValueError (msg : string)
  | TypeError (why : bind_error)
  | Error (cls msg : string).

(** How a Python call ends: it returns or it raises. *)
Inductive result (A : Type) : Type :=
  | Return (a : A)
  | Raise (e : exn).
Arguments Return {A} a.
Arguments Raise {A} e.

Definition is_alias_signal (e : exn) : bool :=
  match e with AliasAccessError _ => true | _ => false end.

Definition raises_signal {A} (r : result A) : bool :=
  match r with Raise e => is_alias_signal e | Return _ => false end.

(** ** Dictionaries *)

(** [dict(pairs)]: built left to right, a later pair replaces an earlier one
    with the same key. *)
Definition dict (pairs : list (string * value)) : gmap string value :=
  foldl (λ m kv, <[kv.1 := kv.2]> m) ∅ pairs.

(** [d.update(other)]: the keys of [other] replace those of [d]. *)
Definition update (d other : gmap string value) : gmap string value :=
  other ∪ d.

Definition identity_error : string :=
  "functions decorated by 'wrapped_identity' must take an argument named 'identity'".

Section Driver.

(** The state of the world outside the wrapper: the hypervisor and whatever
    the canonical driver keeps. *)
Context {St : Type}.

(** A Python callable as the wrapper sees it: the names that
    [getfullargspec(func).args] reports and what a call
    [func( *args, **kwargs)] does. *)
Record callable : Type := Callable {
  getfullargspec_args : list string;
  invoke : list value → gmap string value → St → result value * St
}.

(** One driver invocation as it was made: positional and keyword arguments. *)
Definition invocation : Type := list value * gmap string value.

(** What one call of the wrapper amounts to: how it ended, the state it left
    and (as a ghost record) the invocations of [func] it made, in order. *)
Record run : Type := Run {
  outcome : result value;
  final : St;
  calls : list invocation
}.

(** The closure [identity_wrapper( *args, **kwargs)] of [wrapped_identity],
    for the decorated function [func]. *)
Definition identity_wrapper (func : callable)
    (args : list value) (kwargs : gmap string value) (st : St) : run :=
  let arguments := getfullargspec_args func in
  if decide ("identity" ∈ arguments) then
    let kwargs := update kwargs (dict (zip arguments args)) in
    let args := [] in
    match invoke func args kwargs st with
    | (Raise (AliasAccessError err), st1) =>
        let kwargs' := <["identity" := VStr err]> kwargs in
        let '(r, st2) := invoke func args kwargs' st1 in
        Run r st2 [(args, kwargs); (args, kwargs')]
    | (r, st1) => Run r st1 [(args, kwargs)]
    end
  else Run (Raise (ValueError identity_error)) st [].

(** The decorator: it defines the closure and returns it, nothing else.  The
    closure declares only [*args] and [**kwargs]. *)
Definition wrapped_identity (func : callable) : result callable :=
  Return (Callable []
    (λ args kwargs st,
       let r := identity_wrapper func args kwargs st in (outcome r, final r))).

(** The keyed argument set of the wrapper's first invocation. *)
Definition normalized (func : callable)
    (args : list value) (kwargs : gmap string value) : gmap string value :=
  update kwargs (dict (zip (getfullargspec_args func) args)).

(** *** Functions written with [def]

    Every accessor of the by-name driver is a plain [def] with
    positional-or-keyword parameters ([self], [identity], ...), some of them
    with a default value; none has [*args], [**kwargs] or keyword-only
    parameters. *)
Record fundef : Type := Def {
  params : list string;
  defaults : gmap string value;
  body : gmap string value → St → result value * St
}.

(** The first keyword that cannot be bound, if any: one that names no
    parameter, or one that names a parameter already filled by a positional
    argument.  (When several keywords offend, which one is reported depends
    on the order of the dictionary; no statement below depends on it.) *)
Definition keyword_error (fd : fundef)
    (args : list value) (kwargs : gmap string value) : option bind_error :=
  let filled := take (length args) (params fd) in
  match filter (λ k, k ∉ params fd ∨ k ∈ filled) (map_to_list kwargs).*1 with
  | [] => None
  | k :: _ =>
      Some (if decide (k ∈ params fd) then MultipleValues else UnexpectedKeyword)
  end.

(** Python's binding of the arguments of a call to the parameters of a
    [def]: positional arguments fill the parameters from the left, keywords
    fill the parameters they name, defaults fill what is left. *)
Definition bind_arguments (fd : fundef)
    (args : list value) (kwargs : gmap string value)
    : result (gmap string value) :=
  match keyword_error fd args kwargs with
  | Some why => Raise (TypeError why)
  | None =>
      if decide (length (params fd) < length args)
      then Raise (TypeError TooManyPositional)
      else
        let bound := dict (zip (params fd) args) ∪ kwargs ∪ defaults fd in
        if decide (Forall (λ p, is_Some (bound !! p)) (params fd))
        then Return bound
        else Raise (TypeError MissingArgument)
  end.

(** The callable a [def] makes: a call binds its arguments, then runs the
    body. *)
Definition def (fd : fundef) : callable :=
  Callable (params fd)
    (λ args kwargs st,
       match bind_arguments fd args kwargs with
       | Return bound => body fd bound st
       | Raise e => (Raise e, st)
       end).

(** ** The [systems] property *)

Section Systems.

(** The libvirt connection and domain handles, and what the property
    calls on them: [conn.listAllDomains()] and [domain.name()]. *)
Context {conn domain : Type}.
Variable listAllDomains : conn → St → result (list domain) * St.
Variable name : domain → result string.

(** Modelled from the spec: the context manager [libvirt_open] of
    [libvirtdriver.py], which is not among the sources.  Entering it opens
    a connection to the hypervisor at a URI, read-only or not, or fails;
    leaving it closes the connection and lets a failure of the block
    through ("open-then-close a management connection around each
    logical operation"). *)
Variable libvirt_open_enter : string → bool → St → result conn * St.
Variable libvirt_open_exit : conn → St → St.

(** [with libvirt_open(uri, readonly) as conn: block] *)
Definition with_libvirt_open {A} (uri : string) (readonly : bool)
    (block : conn → St → result A * St) (st : St) : result A * St :=
  match libvirt_open_enter uri readonly st with
  | (Return c, st1) =>
      let '(r, st2) := block c st1 in (r, libvirt_open_exit c st2)
  | (Raise e, st1) => (Raise e, st1)
  end.

(** [[domain.name() for domain in domains]]: the first failure ends the
    comprehension. *)
Fixpoint names (domains : list domain) : result (list string) :=
  match domains with
  | [] => Return []
  | d :: rest =>
      match name d with
      | Return n =>
          match names rest with
          | Return ns => Return (n :: ns)
          | Raise e => Raise e
          end
      | Raise e => Raise e
      end
  end.

(** The property [systems] of the by-name driver, whose [self._uri] is
    [uri]. *)
Definition systems (uri : string) (st : St) : result (list string) * St :=
  with_libvirt_open uri true
    (λ c st1,
       match listAllDomains c st1 with
       | (Return domains, st2) => (names domains, st2)
       | (Raise e, st2) => (Raise e, st2)
       end) st.

End Systems.

End Driver.

Arguments callable : clear implicits.
Arguments run : clear implicits.
Arguments fundef : clear implicits.

(** ** The by-name driver class *)

Module LibvirtDriver.

Section Methods.

Context {St : Type}.

(** Modelled from the spec: the base class [DriverBase] (the [LibvirtDriver]
    of [libvirtdriver.py]) is not among the sources; it "implements every
    accessor keyed strictly by canonical identifier".
    [DriverBase method self arguments] is the call
    [super().method( *arguments)] on the object [self]. *)
Variable DriverBase : string → value → list value → St → result value * St.

(** [return super().method(identity, ...)]: the body reads its parameters
    and passes them on positionally, in the order given.  (Binding fills
    every parameter before the body runs; reading an unbound name would be
    a [NameError].) *)
Definition delegate (method : string) (passed : list string)
    (bound : gmap string value) (st : St) : result value * St :=
  match bound !! "self", mapM (bound !!.) passed with
  | Some self, Some arguments => DriverBase method self arguments st
  | _, _ => (Raise (Error "NameError" method), st)
  end.

(** [def method(self, identity, ...): return super().method(identity, ...)] *)
Definition accessor (method : string) (extra : list string)
    (defaults : gmap string value) : fundef St :=
  Def ("self" :: "identity" :: extra) defaults
    (delegate method ("identity" :: extra)).

(** The property [driver]. *)
Definition driver : value := VStr "<libvirtbyname>".

(** The functions that the class decorates with [wrapped_identity]. *)
Definition uuid := accessor "uuid" [] ∅.
Definition name := accessor "name" [] ∅.
Definition get_power_state := accessor "get_power_state" [] ∅.
Definition set_power_state := accessor "set_power_state" ["state"] ∅.
Definition get_boot_device := accessor "get_boot_device" [] ∅.
Definition set_boot_device := accessor "set_boot_device" ["boot_source"] ∅.
Definition get_boot_mode := accessor "get_boot_mode" [] ∅.
Definition set_boot_mode := accessor "set_boot_mode" ["boot_mode"] ∅.
Definition get_secure_boot := accessor "get_secure_boot" [] ∅.
Definition set_secure_boot := accessor "set_secure_boot" ["secure"] ∅.
Definition get_total_memory := accessor "get_total_memory" [] ∅.
Definition get_total_cpus := accessor "get_total_cpus" [] ∅.
Definition get_bios := accessor "get_bios" [] ∅.
Definition get_versions := accessor "get_versions" [] ∅.
Definition set_bios := accessor "set_bios" ["attributes"] ∅.
Definition set_versions := accessor "set_versions" ["firmware_versions"] ∅.
Definition reset_bios := accessor "reset_bios" [] ∅.
Definition reset_versions := accessor "reset_versions" [] ∅.
Definition get_nics := accessor "get_nics" [] ∅.
Definition get_processors := accessor "get_processors" [] ∅.
Definition get_boot_image := accessor "get_boot_image" ["device"] ∅.
Definition set_boot_image :=
  accessor "set_boot_image" ["device"; "boot_image"; "write_protected"]
    {["boot_image" := VNone; "write_protected" := VBool true]}.
Definition get_simple_storage_collection :=
  accessor "get_simple_storage_collection" [] ∅.
Definition get_http_boot_uri := accessor "get_http_boot_uri" [] ∅.

(** All of them, in the order of the class. *)
Definition decorated : list (fundef St) :=
  [uuid; name; get_power_state; set_power_state; get_boot_device;
   set_boot_device; get_boot_mode; set_boot_mode; get_secure_boot;
   set_secure_boot; get_total_memory; get_total_cpus; get_bios; get_versions;
   set_bios; set_versions; reset_bios; reset_versions; get_nics;
   get_processors; get_boot_image; set_boot_image;
   get_simple_storage_collection; get_http_boot_uri].

End Methods.

End LibvirtDriver.

(** ** Replaying a record of invocations *)

(** The invocations of a record made one after the other on [func], each in
    the state the one before left: how the last one ends, or [None] for an
    empty record. *)
Fixpoint replay {St : Type} (func : callable St)
    (record : list (list value * gmap string value)) (st : St)
    : option (result value * St) :=
  match record with
  | [] => None
  | c :: rest =>
      match rest with
      | [] => Some (invoke func c.1 c.2 st)
      | _ :: _ => replay func rest (invoke func c.1 c.2 st).2
      end
  end.

(** ** Fixtures

    A small canonical driver to run the wrapper on, after the scenario of the
    design document: a hypervisor is a list of machines, each with a canonical
    identifier, a display name and a power state. *)
Record machine : Type := Machine {
  m_uuid : string;
  m_name : string;
  m_power : string
}.

Definition hypervisor : Type := list machine.

(** Resolution as the canonical driver does it: a canonical identifier gives
    the machine, a display name gives the redirect signal carrying the
    canonical identifier, anything else is not found. *)
Definition get_domain (identity : value) (hv : hypervisor) : result machine :=
  match identity with
  | VStr s =>
      match List.find (λ m, bool_decide (m_uuid m = s)) hv with
      | Some m => Return m
      | None =>
          match List.find (λ m, bool_decide (m_name m = s)) hv with
          | Some m => Raise (AliasAccessError (m_uuid m))
          | None => Raise (Error "NotFound" s)
          end
      end
  | _ => Raise (Error "NotFound" "")
  end.

(** [def get_power_state(self, identity)] of the canonical driver. *)
Definition get_power_state : fundef hypervisor :=
  Def ["self"; "identity"] ∅
    (λ bound hv,
       match bound !! "identity" with
       | Some i =>
           match get_domain i hv with
           | Return m => (Return (VStr (m_power m)), hv)
           | Raise e => (Raise e, hv)
           end
       | None => (Raise (TypeError MissingArgument), hv)
       end).

Definition web_vm : machine := Machine "3b2f-uuid" "web-vm" "On".
Definition db_vm : machine := Machine "77c1-uuid" "db-vm" "Off".
Definition lab : hypervisor := [web_vm; db_vm].


(** A driver whose aliases resolve in two hops: ["web"] redirects to
    ["web-vm"], which redirects to the canonical ["3b2f-uuid"]. *)
Definition two_hops : callable unit :=
  Callable ["identity"]
    (λ _ kw u,
       match kw !! "identity" with
       | Some (VStr "web") => (Raise (AliasAccessError "web-vm"), u)
       | Some (VStr "web-vm") => (Raise (AliasAccessError "3b2f-uuid"), u)
       | Some (VStr "3b2f-uuid") => (Return (VStr "On"), u)
       | _ => (Raise (Error "NotFound" ""), u)
       end).

(** [def driver(self)]: a function without an [identity] parameter. *)
Definition driver_name : fundef hypervisor :=
  Def ["self"] ∅ (λ _ hv, (Return (VStr "<libvirtbyname>"), hv)).

(** A libvirt stand-in for [systems]: opening a connection to ["qemu:///down"]
    fails, any other URI gives a connection that lists the machines. *)
Definition lab_open (uri : string) (readonly : bool) (hv : hypervisor)
    : result hypervisor * hypervisor :=
  if decide (uri = "qemu:///down")
  then (Raise (Error "FishyError" "connection failed"), hv)
  else (Return hv, hv).

Definition lab_close (c : hypervisor) (hv : hypervisor) : hypervisor := hv.

Definition lab_list (c : hypervisor) (hv : hypervisor)
    : result (list machine) * hypervisor :=
  (Return c, hv).

Definition lab_name (m : machine) : result string := Return (m_name m).

(** A base class over the hypervisor: it reads and sets the power state
    and records nothing else; [set_boot_image] answers with the arguments it
    was given. *)
Definition set_power (uuid state : string) (hv : hypervisor) : hypervisor :=
  (λ m, if bool_decide (m_uuid m = uuid)
        then Machine (m_uuid m) (m_name m) state else m) <$> hv.

Definition lab_base (method : string) (self : value) (arguments : list value)
    (hv : hypervisor) : result value * hypervisor :=
  if String.eqb method "get_power_state" then
    match arguments with
    | [identity] =>
        match get_domain identity hv with
        | Return m => (Return (VStr (m_power m)), hv)
        | Raise e => (Raise e, hv)
        end
    | _ => (Raise (TypeError TooManyPositional), hv)
    end
  else if String.eqb method "set_power_state" then
    match arguments with
    | [identity; VStr state] =>
        match get_domain identity hv with
        | Return m => (Return VNone, set_power (m_uuid m) state hv)
        | Raise e => (Raise e, hv)
        end
    | _ => (Raise (Error "FishyError" "unknown state"), hv)
    end
  else if String.eqb method "set_boot_image" then
    match arguments with
    | identity :: rest =>
        match get_domain identity hv with
        | Return m => (Return (VList rest), hv)
        | Raise e => (Raise e, hv)
        end
    | [] => (Raise (TypeError MissingArgument), hv)
    end
  else (Raise (Error "FishyError" "not implemented"), hv).

(** [def stub(self, identity): raise AliasAccessError("3b2f-uuid")]: a
    function made by [def] that redirects whenever it runs; its state counts
    the runs of its body. *)
Definition redirecting_stub : fundef nat :=
  Def ["self"; "identity"] ∅
    (λ _ n, (Raise (AliasAccessError "3b2f-uuid"), S n)).

(** * Properties *)

Section Wrapper_properties.

Context {St : Type}.
Implicit Types (func : callable St) (fd : fundef St).
Implicit Types (args : list value) (kwargs kw : gmap string value).
Implicit Types (st : St) (r : result value).

(** *** The three paths through [identity_wrapper] *)

Lemma identity_wrapper_no_identity func args kwargs st :
  "identity" ∉ getfullargspec_args func →
  identity_wrapper func args kwargs st
    = Run (Raise (ValueError identity_error)) st [].
Proof. intros Hno. unfold identity_wrapper. by case_decide. Qed.

Lemma identity_wrapper_once func args kwargs st r st1 :
  "identity" ∈ getfullargspec_args func →
  invoke func [] (normalized func args kwargs) st = (r, st1) →
  raises_signal r = false →
  identity_wrapper func args kwargs st
    = Run r st1 [([], normalized func args kwargs)].
Proof.
  intros Hid Hfirst Hr. unfold identity_wrapper, normalized in *.
  case_decide; [|done]. rewrite Hfirst.
  by destruct r as [v|[]].
Qed.

Lemma identity_wrapper_retry func args kwargs st c st1 r st2 :
  "identity" ∈ getfullargspec_args func →
  invoke func [] (normalized func args kwargs) st
    = (Raise (AliasAccessError c), st1) →
  invoke func [] (<["identity" := VStr c]> (normalized func args kwargs)) st1
    = (r, st2) →
  identity_wrapper func args kwargs st
    = Run r st2 [([], normalized func args kwargs);
                 ([], <["identity" := VStr c]> (normalized func args kwargs))].
Proof.
  intros Hid Hfirst Hsecond. unfold identity_wrapper, normalized in *.
  case_decide; [|done]. by rewrite Hfirst, Hsecond.
Qed.

(** Whatever the driver does, a call of the wrapper is one of the three. *)
Lemma identity_wrapper_cases func args kwargs st :
  let kw := normalized func args kwargs in
  (("identity" ∉ getfullargspec_args func) ∧
     identity_wrapper func args kwargs st
       = Run (Raise (ValueError identity_error)) st [])
  ∨ (∃ r st1, "identity" ∈ getfullargspec_args func ∧
       invoke func [] kw st = (r, st1) ∧ raises_signal r = false ∧
       identity_wrapper func args kwargs st = Run r st1 [([], kw)])
  ∨ (∃ c st1 r st2, "identity" ∈ getfullargspec_args func ∧
       invoke func [] kw st = (Raise (AliasAccessError c), st1) ∧
       invoke func [] (<["identity" := VStr c]> kw) st1 = (r, st2) ∧
       identity_wrapper func args kwargs st
         = Run r st2 [([], kw); ([], <["identity" := VStr c]> kw)]).
Proof.
  intros kw.
  destruct (decide ("identity" ∈ getfullargspec_args func)) as [Hid|Hno].
  - right.
    destruct (invoke func [] kw st) as [r st1] eqn:Hfirst.
    destruct (raises_signal r) eqn:Hr.
    + right. destruct r as [v|[c| | |]]; try done.
      destruct (invoke func [] (<["identity" := VStr c]> kw) st1)
        as [r2 st2] eqn:Hsecond.
      exists c, st1, r2, st2. split_and!; try done.
      by apply identity_wrapper_retry with st1.
    + left. exists r, st1. split_and!; try done.
      by apply identity_wrapper_once.
  - left. split; [done|]. by apply identity_wrapper_no_identity.
Qed.

(** How a call of the wrapper ends when [func] declares [identity]: as the
    invocation on the keyed arguments ends or, if that raises the signal, as
    the invocation with the payload for [identity] ends, made in the state
    the first one left. *)
Lemma identity_wrapper_ends func args kwargs st :
  "identity" ∈ getfullargspec_args func →
  (outcome (identity_wrapper func args kwargs st),
   final (identity_wrapper func args kwargs st))
    = match invoke func [] (normalized func args kwargs) st with
      | (Raise (AliasAccessError c), st1) =>
          invoke func []
            (<["identity" := VStr c]> (normalized func args kwargs)) st1
      | ended => ended
      end.
Proof.
  intros Hid.
  destruct (identity_wrapper_cases func args kwargs st)
    as [[Hno _]|[(r & st1 & _ & Hfirst & Hr & ->)
                |(c & st1 & r & st2 & _ & Hfirst & Hsecond & ->)]].
  - done.
  - rewrite Hfirst. by destruct r as [v|[]].
  - by rewrite Hfirst, Hsecond.
Qed.

(** *** The keyed argument set *)

Lemma dict_reverse (pairs : list (string * value)) :
  dict pairs = list_to_map (reverse pairs).
Proof.
  unfold dict. induction pairs as [|[k v] pairs IH] using rev_ind; [done|].
  by rewrite foldl_app, reverse_snoc, list_to_map_cons, <- IH.
Qed.

Lemma fst_zip_take (ps : list string) args :
  (zip ps args).*1 = take (length args) ps.
Proof.
  rewrite <- (zip_with_take_l _ ps args).
  apply fst_zip. rewrite length_take. lia.
Qed.

(** A parameter filled positionally is keyed with the positional value. *)
Lemma dict_zip_lookup (ps : list string) args i p v :
  NoDup ps → ps !! i = Some p → args !! i = Some v →
  dict (zip ps args) !! p = Some v.
Proof.
  intros Hnodup Hp Hv. rewrite dict_reverse.
  apply elem_of_list_to_map.
  - rewrite fmap_reverse, reverse_Permutation, fst_zip_take.
    rewrite <- (take_drop (length args) ps) in Hnodup.
    by apply NoDup_app in Hnodup as [? _].
  - apply elem_of_reverse, list_elem_of_lookup. exists i.
    apply lookup_zip_with_Some. by exists p, v.
Qed.

(** A name that no positional argument fills is not keyed by [zip]. *)
Lemma dict_zip_lookup_None (ps : list string) args p :
  p ∉ take (length args) ps → dict (zip ps args) !! p = None.
Proof.
  intros Hp. rewrite dict_reverse. apply not_elem_of_list_to_map.
  by rewrite fmap_reverse, elem_of_reverse, fst_zip_take.
Qed.

Lemma normalized_positional func args kwargs i p v :
  NoDup (getfullargspec_args func) →
  getfullargspec_args func !! i = Some p → args !! i = Some v →
  normalized func args kwargs !! p = Some v.
Proof.
  intros. unfold normalized, update.
  apply lookup_union_Some_l. by apply dict_zip_lookup with i.
Qed.

Lemma normalized_keyword func args kwargs p :
  p ∉ take (length args) (getfullargspec_args func) →
  normalized func args kwargs !! p = kwargs !! p.
Proof.
  intros. unfold normalized, update.
  apply lookup_union_r. by apply dict_zip_lookup_None.
Qed.

(** Positional arguments past the declared parameters are not keyed. *)
Lemma normalized_take func args kwargs :
  normalized func (take (length (getfullargspec_args func)) args) kwargs
    = normalized func args kwargs.
Proof. unfold normalized. by rewrite zip_with_take_r. Qed.

(** *** What a call of the wrapped operation does *)

(** C7: if the first invocation of the driver completes normally, the
    wrapped operation returns its result unchanged and the driver is not
    invoked again. *)
Theorem first_result_returned_unchanged func args kwargs st v st1 :
  "identity" ∈ getfullargspec_args func →
  invoke func [] (normalized func args kwargs) st = (Return v, st1) →
  outcome (identity_wrapper func args kwargs st) = Return v
  ∧ final (identity_wrapper func args kwargs st) = st1
  ∧ calls (identity_wrapper func args kwargs st)
      = [([], normalized func args kwargs)].
Proof.
  intros Hid Hfirst.
  by rewrite (identity_wrapper_once _ _ _ _ _ _ Hid Hfirst).
Qed.

(** C5: if the first invocation of the driver fails with anything but the
    redirect signal, that failure reaches the caller as it is, and the
    driver has been invoked exactly once. *)
Theorem other_failure_propagates func args kwargs st e st1 :
  "identity" ∈ getfullargspec_args func →
  invoke func [] (normalized func args kwargs) st = (Raise e, st1) →
  is_alias_signal e = false →
  outcome (identity_wrapper func args kwargs st) = Raise e
  ∧ final (identity_wrapper func args kwargs st) = st1
  ∧ calls (identity_wrapper func args kwargs st)
      = [([], normalized func args kwargs)].
Proof.
  intros Hid Hfirst He.
  by rewrite (identity_wrapper_once _ _ _ _ _ _ Hid Hfirst).
Qed.

(** C6: when the first invocation raises the redirect signal, the wrapper
    invokes the driver a second time, in the state the first invocation
    left, and ends as that invocation ends; the second invocation gets the
    keyed argument set of the first with [identity] set to the payload of
    the signal and every other key as it was.  The first set holds what the
    caller gave: the positional value under the name of the parameter it
    fills, the keyword value under any other name. *)
Theorem retry_replaces_identity_only func args kwargs st c st1 :
  "identity" ∈ getfullargspec_args func →
  invoke func [] (normalized func args kwargs) st
    = (Raise (AliasAccessError c), st1) →
  ∃ kw2,
    calls (identity_wrapper func args kwargs st)
      = [([], normalized func args kwargs); ([], kw2)]
    ∧ kw2 !! "identity" = Some (VStr c)
    ∧ (∀ k, k ≠ "identity" → kw2 !! k = normalized func args kwargs !! k)
    ∧ (outcome (identity_wrapper func args kwargs st),
       final (identity_wrapper func args kwargs st))
      = invoke func [] kw2 st1
    ∧ (NoDup (getfullargspec_args func) →
       ∀ i p v, getfullargspec_args func !! i = Some p → args !! i = Some v →
                normalized func args kwargs !! p = Some v)
    ∧ (∀ p, p ∉ take (length args) (getfullargspec_args func) →
            normalized func args kwargs !! p = kwargs !! p).
Proof.
  intros Hid Hfirst.
  destruct (invoke func []
    (<["identity" := VStr c]> (normalized func args kwargs)) st1)
    as [r st2] eqn:Hsecond.
  rewrite (identity_wrapper_retry _ _ _ _ _ _ _ _ Hid Hfirst Hsecond).
  eexists. split_and!; [done|apply lookup_insert_eq| |by rewrite Hsecond| |].
  - intros k Hk. by apply lookup_insert_ne.
  - intros Hnodup i p v Hp Hv. by apply normalized_positional with i.
  - intros p Hp. by apply normalized_keyword.
Qed.

(** C2: a call of the wrapped operation invokes the driver at most twice:
    its record of invocations has at most two entries and is all the call
    does to the driver (with none the state is as it was, otherwise making
    the recorded invocations in turn gives the outcome and the final state
    of the call).  When the invocations the call makes raise the redirect
    signal, the first and then the retry, the call makes exactly these two
    and ends as the second ends, with its signal. *)
Theorem at_most_two_invocations func args kwargs st :
  let r := identity_wrapper func args kwargs st in
  let kw := normalized func args kwargs in
  ((length (calls r) ≤ 2)%nat
   ∧ match calls r with
     | [] => outcome r = Raise (ValueError identity_error) ∧ final r = st
     | _ :: _ => replay func (calls r) st = Some (outcome r, final r)
     end)
  ∧ ("identity" ∈ getfullargspec_args func →
     raises_signal (invoke func [] kw st).1 = true →
     (∀ c st1, invoke func [] kw st = (Raise (AliasAccessError c), st1) →
        raises_signal
          (invoke func [] (<["identity" := VStr c]> kw) st1).1 = true) →
     ∃ c st1 p st2,
       invoke func [] kw st = (Raise (AliasAccessError c), st1)
       ∧ invoke func [] (<["identity" := VStr c]> kw) st1
           = (Raise (AliasAccessError p), st2)
       ∧ r = Run (Raise (AliasAccessError p)) st2
               [([], kw); ([], <["identity" := VStr c]> kw)]).
Proof.
  intros r kw. subst r kw.
  destruct (identity_wrapper_cases func args kwargs st)
    as [[Hno ->]|[(r & st1 & Hid & Hfirst & Hr & ->)
                 |(c & st1 & r & st2 & Hid & Hfirst & Hsecond & ->)]];
    (split; [split; [simpl; lia|]|]).
  - done.
  - done.
  - simpl. by rewrite Hfirst.
  - intros _ Hsignal _. rewrite Hfirst in Hsignal. simpl in Hsignal.
    congruence.
  - simpl. rewrite Hfirst. simpl. by rewrite Hsecond.
  - intros _ _ Hretry. specialize (Hretry c st1 Hfirst).
    rewrite Hsecond in Hretry. simpl in Hretry.
    destruct r as [v|[p| | |]]; try done.
    by exists c, st1, p, st2.
Qed.


(** C3, as the code has it: wrapping a function that declares no
    [identity] parameter succeeds; the [ValueError] is raised by every call
    of the wrapped operation, before the driver is invoked. *)
Theorem missing_identity_detected_at_call func :
  "identity" ∉ getfullargspec_args func →
  ∃ wrapped,
    wrapped_identity func = Return wrapped
    ∧ ∀ args kwargs st,
        invoke wrapped args kwargs st
          = (Raise (ValueError identity_error), st)
        ∧ calls (identity_wrapper func args kwargs st) = [].
Proof.
  intros Hno. eexists. split; [done|]. intros args kwargs st. simpl.
  by rewrite identity_wrapper_no_identity.
Qed.

(** C1: when the driver answers the alias with the redirect signal carrying
    the canonical identifier [C] (the resolution leaving the driver as it
    was) and does not redirect [C] itself, the wrapped operation called
    with the alias ends as it does called with [C] and the same other
    arguments. *)
Theorem alias_same_as_canonical func args kwargs args' kwargs' st C :
  normalized func args' kwargs'
    = <["identity" := VStr C]> (normalized func args kwargs) →
  invoke func [] (normalized func args kwargs) st
    = (Raise (AliasAccessError C), st) →
  raises_signal (invoke func [] (normalized func args' kwargs') st).1 = false →
  outcome (identity_wrapper func args kwargs st)
    = outcome (identity_wrapper func args' kwargs' st)
  ∧ final (identity_wrapper func args kwargs st)
    = final (identity_wrapper func args' kwargs' st).
Proof.
  intros Hsame Halias Hcanonical.
  destruct (decide ("identity" ∈ getfullargspec_args func)) as [Hid|Hno].
  - destruct (invoke func [] (normalized func args' kwargs') st)
      as [r st2] eqn:Hdirect.
    rewrite (identity_wrapper_once _ _ _ _ _ _ Hid Hdirect Hcanonical).
    rewrite Hsame in Hdirect.
    by rewrite (identity_wrapper_retry _ _ _ _ _ _ _ _ Hid Halias Hdirect).
  - by rewrite !identity_wrapper_no_identity.
Qed.

End Wrapper_properties.

Section Direct_calls.

Context {St : Type}.
Implicit Types (fd : fundef St) (args : list value).
Implicit Types (kwargs kw : gmap string value) (st : St).

(** *** Binding, with and without positional arguments *)

(** The keyword that [keyword_error] reports is a keyword of the call that
    names no parameter or a parameter already filled. *)
Lemma keyword_error_Some fd args kwargs why :
  keyword_error fd args kwargs = Some why →
  ∃ k, is_Some (kwargs !! k)
    ∧ (k ∉ params fd ∨ k ∈ take (length args) (params fd))
    ∧ why = if decide (k ∈ params fd) then MultipleValues
            else UnexpectedKeyword.
Proof.
  unfold keyword_error.
  destruct (filter _ _) as [|k rest] eqn:Hfilter; [done|].
  intros [= <-]. exists k.
  assert (k ∈ k :: rest) as Hk by left.
  rewrite <- Hfilter in Hk.
  apply list_elem_of_filter in Hk as [Hoffends Hk].
  apply list_elem_of_fmap in Hk as [[k' x] [-> Hk]].
  apply elem_of_map_to_list in Hk. split_and!; [by exists x|done..].
Qed.

(** Without positional arguments a keyword can only offend by naming no
    parameter. *)
Lemma keyword_error_no_positional fd kw why :
  keyword_error fd [] kw = Some why → why = UnexpectedKeyword.
Proof.
  intros (k & _ & [Hk|Hk] & ->)%keyword_error_Some.
  - by rewrite decide_False.
  - by apply elem_of_nil in Hk.
Qed.

Lemma bind_arguments_no_positional fd kw why :
  bind_arguments fd [] kw = Raise (TypeError why) →
  why = UnexpectedKeyword ∨ why = MissingArgument.
Proof.
  unfold bind_arguments.
  destruct (keyword_error fd [] kw) as [why'|] eqn:Hkw.
  - apply keyword_error_no_positional in Hkw as ->. left. congruence.
  - simpl. case_decide; [done|]. right. congruence.
Qed.

(** A keyword that names a parameter already filled positionally is an
    error of the direct call. *)
Lemma keyword_error_duplicate fd args kwargs i p v w :
  params fd !! i = Some p → args !! i = Some v → kwargs !! p = Some w →
  ∃ why, keyword_error fd args kwargs = Some why
    ∧ ((∀ k, is_Some (kwargs !! k) → k ∈ params fd) → why = MultipleValues).
Proof.
  intros Hp Hv Hw.
  destruct (keyword_error fd args kwargs) as [why|] eqn:Hkw.
  - exists why. split; [done|]. intros Hdeclared.
    apply keyword_error_Some in Hkw as (k & Hk & _ & ->).
    by rewrite decide_True by auto.
  - exfalso. unfold keyword_error in Hkw.
    destruct (filter _ _) as [|k rest] eqn:Hfilter; [|done].
    assert (p ∈ @nil string) as Hin; [|by apply elem_of_nil in Hin].
    rewrite <- Hfilter. apply list_elem_of_filter. split.
    + right. apply elem_of_take. exists i. split; [done|].
      by apply lookup_lt_Some in Hv.
    + apply list_elem_of_fmap. exists (p, w). split; [done|].
      by apply elem_of_map_to_list.
Qed.

(** Every invocation the wrapper makes is by keyword only. *)
Lemma identity_wrapper_calls_by_keyword (func : callable St) args kwargs st :
  Forall (λ c, c.1 = []) (calls (identity_wrapper func args kwargs st)).
Proof.
  destruct (identity_wrapper_cases func args kwargs st)
    as [[_ ->]|[(? & ? & _ & _ & _ & ->)
               |(? & ? & ? & ? & _ & _ & _ & ->)]];
    simpl; repeat constructor.
Qed.

End Direct_calls.

Section Systems_properties.

Context {St conn domain : Type}.
Variable listAllDomains : conn → St → result (list domain) * St.
Variable name : domain → result string.
Variable libvirt_open_enter : string → bool → St → result conn * St.
Variable libvirt_open_exit : conn → St → St.

Implicit Types (domains before after : list domain) (d : domain).

(** The comprehension gives the name of every domain, in order. *)
Lemma names_Return domains (ns : list string) :
  names name domains = Return ns
  ↔ Forall2 (λ d n, name d = Return n) domains ns.
Proof.
  revert ns. induction domains as [|d rest IH]; intros ns; simpl.
  - split; [intros [= <-]; constructor|by inversion 1].
  - destruct (name d) as [n|e] eqn:Hd.
    + destruct (names name rest) as [ns'|e] eqn:Hrest.
      * split.
        -- intros [= <-]. constructor; [done|]. by apply IH.
        -- inversion 1 as [|? n' ? ns'' Hn Hns]; subst.
           apply IH in Hns. congruence.
      * split; [done|].
        inversion 1 as [|? n' ? ns'' Hn Hns]; subst.
        apply IH in Hns. congruence.
    + split; [done|]. inversion 1; congruence.
Qed.

(** It fails as the first domain whose name fails. *)
Lemma names_Raise before after d e :
  Forall (λ d', ∃ n, name d' = Return n) before → name d = Raise e →
  names name (before ++ d :: after)%list = Raise e.
Proof.
  intros Hbefore Hd. induction Hbefore as [|d' before [n Hn] _ IH]; simpl.
  - by rewrite Hd.
  - by rewrite Hn, IH.
Qed.

(** C8: [systems] returns one display name for each domain of the
    enumeration, in the order of the enumeration; a failure to open the
    connection, to enumerate or to read a name reaches the caller as it
    is. *)
Theorem systems_lists_names (uri : string) (st : St) :
  let listed :=
    systems listAllDomains name libvirt_open_enter libvirt_open_exit uri st in
  (∀ e st1, libvirt_open_enter uri true st = (Raise e, st1) →
     listed = (Raise e, st1))
  ∧ (∀ c st1 e st2,
       libvirt_open_enter uri true st = (Return c, st1) →
       listAllDomains c st1 = (Raise e, st2) →
       listed = (Raise e, libvirt_open_exit c st2))
  ∧ (∀ c st1 domains st2,
       libvirt_open_enter uri true st = (Return c, st1) →
       listAllDomains c st1 = (Return domains, st2) →
       (∀ ns, Forall2 (λ d n, name d = Return n) domains ns →
          listed = (Return ns, libvirt_open_exit c st2)
          ∧ length ns = length domains)
       ∧ (∀ before d after e, domains = (before ++ d :: after)%list →
            Forall (λ d', ∃ n, name d' = Return n) before →
            name d = Raise e →
            listed = (Raise e, libvirt_open_exit c st2))).
Proof.
  intros listed. subst listed. unfold systems, with_libvirt_open.
  split_and!.
  - by intros e st1 ->.
  - by intros c st1 e st2 -> ->.
  - intros c st1 domains st2 -> ->. split.
    + intros ns Hns. split; [|symmetry; by eapply Forall2_length].
      by apply names_Return in Hns as ->.
    + intros before d after e -> Hbefore Hd.
      by rewrite (names_Raise _ _ _ _ Hbefore Hd).
Qed.

End Systems_properties.

(** * The scenario of the design document, run

    The hypervisor [lab] has the machine ["3b2f-uuid"], displayed as
    ["web-vm"] and powered on. *)

Lemma alias_same_as_canonical_witness :
  outcome (identity_wrapper (def get_power_state)
             [VRef 0; VStr "web-vm"] ∅ lab)
    = outcome (identity_wrapper (def get_power_state)
                 [VRef 0; VStr "3b2f-uuid"] ∅ lab)
  ∧ final (identity_wrapper (def get_power_state)
             [VRef 0; VStr "web-vm"] ∅ lab)
    = final (identity_wrapper (def get_power_state)
               [VRef 0; VStr "3b2f-uuid"] ∅ lab).
Proof.
  apply (alias_same_as_canonical (def get_power_state)
           [VRef 0; VStr "web-vm"] ∅ [VRef 0; VStr "3b2f-uuid"] ∅ lab
           "3b2f-uuid"); reflexivity.
Defined.

Lemma at_most_two_invocations_witness :
  (∃ c st1 p st2,
     invoke (def redirecting_stub) []
         (normalized (def redirecting_stub) [VRef 0; VStr "web-vm"] ∅) 0
       = (Raise (AliasAccessError c), st1)
     ∧ invoke (def redirecting_stub) []
         (<["identity" := VStr c]>
            (normalized (def redirecting_stub) [VRef 0; VStr "web-vm"] ∅)) st1
         = (Raise (AliasAccessError p), st2)
     ∧ identity_wrapper (def redirecting_stub) [VRef 0; VStr "web-vm"] ∅ 0
       = Run (Raise (AliasAccessError p)) st2
           [([], normalized (def redirecting_stub) [VRef 0; VStr "web-vm"] ∅);
            ([], <["identity" := VStr c]>
                   (normalized (def redirecting_stub)
                      [VRef 0; VStr "web-vm"] ∅))])
  ∧ final (identity_wrapper (def redirecting_stub)
             [VRef 0; VStr "web-vm"] ∅ 0) = 2.
Proof.
  split; [|reflexivity].
  apply (at_most_two_invocations (def redirecting_stub)
           [VRef 0; VStr "web-vm"] ∅ 0).
  - compute_done.
  - reflexivity.
  - intros c st1 _. reflexivity.
Defined.

(** C3, as stated, fails: wrapping [def driver(self)] succeeds, and the error
    comes when the wrapped function is called. *)
Lemma wrap_without_identity_succeeds :
  ("identity" ∉ getfullargspec_args (def driver_name))
  ∧ (∀ e, wrapped_identity (def driver_name) ≠ Raise e)
  ∧ ∃ wrapped,
      wrapped_identity (def driver_name) = Return wrapped
      ∧ invoke wrapped [VRef 0] ∅ lab = (Raise (ValueError identity_error), lab).
Proof.
  split_and!; [compute_done|done|]. eexists. split; reflexivity.
Qed.

Lemma missing_identity_detected_at_call_witness :
  ∃ wrapped,
    wrapped_identity (def driver_name) = Return wrapped
    ∧ ∀ args kwargs st,
        invoke wrapped args kwargs st = (Raise (ValueError identity_error), st)
        ∧ calls (identity_wrapper (def driver_name) args kwargs st) = [].
Proof.
  apply (missing_identity_detected_at_call (def driver_name)). compute_done.
Defined.



Lemma other_failure_propagates_witness :
  outcome (identity_wrapper (def get_power_state)
             [VRef 0; VStr "ghost-vm"] ∅ lab)
    = Raise (Error "NotFound" "ghost-vm")
  ∧ final (identity_wrapper (def get_power_state)
             [VRef 0; VStr "ghost-vm"] ∅ lab) = lab
  ∧ calls (identity_wrapper (def get_power_state)
             [VRef 0; VStr "ghost-vm"] ∅ lab)
      = [([], normalized (def get_power_state) [VRef 0; VStr "ghost-vm"] ∅)].
Proof.
  apply (other_failure_propagates (def get_power_state)
           [VRef 0; VStr "ghost-vm"] ∅ lab); [compute_done|reflexivity..].
Defined.

Lemma retry_replaces_identity_only_witness :
  ∃ kw2,
    calls (identity_wrapper (def get_power_state)
             [VRef 0; VStr "web-vm"] ∅ lab)
      = [([], normalized (def get_power_state) [VRef 0; VStr "web-vm"] ∅);
         ([], kw2)]
    ∧ kw2 !! "identity" = Some (VStr "3b2f-uuid")
    ∧ (∀ k, k ≠ "identity" →
         kw2 !! k
           = normalized (def get_power_state) [VRef 0; VStr "web-vm"] ∅ !! k)
    ∧ (outcome (identity_wrapper (def get_power_state)
                  [VRef 0; VStr "web-vm"] ∅ lab),
       final (identity_wrapper (def get_power_state)
                [VRef 0; VStr "web-vm"] ∅ lab))
      = invoke (def get_power_state) [] kw2 lab
    ∧ (NoDup (getfullargspec_args (def get_power_state)) →
       ∀ i p v,
         getfullargspec_args (def get_power_state) !! i = Some p →
         [VRef 0; VStr "web-vm"] !! i = Some v →
         normalized (def get_power_state) [VRef 0; VStr "web-vm"] ∅ !! p
           = Some v)
    ∧ (∀ p,
         p ∉ take (length [VRef 0; VStr "web-vm"])
               (getfullargspec_args (def get_power_state)) →
         normalized (def get_power_state) [VRef 0; VStr "web-vm"] ∅ !! p
           = (∅ : gmap string value) !! p).
Proof.
  apply (retry_replaces_identity_only (def get_power_state)
           [VRef 0; VStr "web-vm"] ∅ lab "3b2f-uuid" lab);
    [compute_done|reflexivity].
Defined.

Lemma first_result_returned_unchanged_witness :
  outcome (identity_wrapper (def get_power_state)
             [VRef 0; VStr "3b2f-uuid"] ∅ lab) = Return (VStr "On")
  ∧ final (identity_wrapper (def get_power_state)
             [VRef 0; VStr "3b2f-uuid"] ∅ lab) = lab
  ∧ calls (identity_wrapper (def get_power_state)
             [VRef 0; VStr "3b2f-uuid"] ∅ lab)
      = [([], normalized (def get_power_state) [VRef 0; VStr "3b2f-uuid"] ∅)].
Proof.
  apply (first_result_returned_unchanged (def get_power_state)
           [VRef 0; VStr "3b2f-uuid"] ∅ lab); [compute_done|reflexivity].
Defined.

Lemma systems_lists_names_witness :
  systems lab_list lab_name lab_open lab_close "qemu:///system" lab
    = (Return ["web-vm"; "db-vm"], lab)
  ∧ length ["web-vm"; "db-vm"] = length lab.
Proof.
  destruct (systems_lists_names lab_list lab_name lab_open lab_close
              "qemu:///system" lab) as (_ & _ & Hlisted).
  destruct (Hlisted lab lab lab lab eq_refl eq_refl) as [Hnames _].
  apply Hnames. repeat constructor.
Defined.

(** The scenario itself: by name the driver is invoked twice, by canonical
    identifier once, and both calls return ["On"]. *)
Example power_state_by_name :
  outcome (identity_wrapper (def get_power_state)
             [VRef 0; VStr "web-vm"] ∅ lab) = Return (VStr "On")
  ∧ length (calls (identity_wrapper (def get_power_state)
                     [VRef 0; VStr "web-vm"] ∅ lab)) = 2.
Proof. split; reflexivity. Qed.

Example power_state_by_uuid :
  outcome (identity_wrapper (def get_power_state)
             [VRef 0] {["identity" := VStr "3b2f-uuid"]} lab)
    = Return (VStr "On")
  ∧ length (calls (identity_wrapper (def get_power_state)
                     [VRef 0] {["identity" := VStr "3b2f-uuid"]} lab)) = 1.
Proof. split; reflexivity. Qed.

(** An alias of an alias is not resolved: the wrapper retries once, so the
    second redirect reaches the caller, while the intermediate name itself
    resolves.  This is why the equivalence of alias and canonical identifier
    supposes that the driver does not redirect the canonical identifier. *)
Example two_hops_not_resolved :
  outcome (identity_wrapper two_hops [VStr "web"] ∅ ())
    = Raise (AliasAccessError "3b2f-uuid")
  ∧ outcome (identity_wrapper two_hops [VStr "web-vm"] ∅ ())
    = Return (VStr "On").
Proof. split; reflexivity. Qed.

(** * Further properties of the wrapper *)

Section Argument_sets.

Context {St : Type}.
Implicit Types (func : callable St) (args : list value).
Implicit Types (kwargs kw : gmap string value) (st : St).

(** A call of the wrapper depends on its arguments through the keyed set
    only. *)
Lemma identity_wrapper_normalized func args kwargs args' kwargs' st :
  normalized func args kwargs = normalized func args' kwargs' →
  identity_wrapper func args kwargs st = identity_wrapper func args' kwargs' st.
Proof.
  unfold identity_wrapper, normalized. intros Hsame.
  case_decide; [|done]. by rewrite Hsame.
Qed.

(** What [dict(zip(...))] holds: the positional value of each parameter that a
    positional argument reaches. *)
Lemma dict_zip_lookup_Some (ps : list string) args k v :
  NoDup ps →
  dict (zip ps args) !! k = Some v
  ↔ ∃ i, ps !! i = Some k ∧ args !! i = Some v.
Proof.
  intros Hnodup. split.
  - rewrite dict_reverse. intros Hk.
    apply elem_of_list_to_map_2 in Hk. rewrite elem_of_reverse in Hk.
    apply elem_of_lookup_zip_with in Hk as (i & k' & v' & [= -> ->] & ? & ?).
    by exists i.
  - intros (i & ? & ?). by apply dict_zip_lookup with i.
Qed.

Lemma zip_snoc (ps : list string) args p v :
  ps !! length args = Some p →
  zip ps (args ++ [v]) = (zip ps args ++ [(p, v)])%list.
Proof.
  revert ps. induction args as [|a args IH]; intros [|q ps] Hp; try done.
  - simpl in *. injection Hp as ->. by destruct ps.
  - simpl in *. f_equal. by apply IH.
Qed.

(** Replacing the positional identity, or the keyword identity, in the call
    is replacing [identity] in the keyed set. *)
Lemma normalized_insert_positional func args kwargs i v :
  NoDup (getfullargspec_args func) →
  getfullargspec_args func !! i = Some "identity" → i < length args →
  normalized func (<[i := v]> args) kwargs
    = <["identity" := v]> (normalized func args kwargs).
Proof.
  intros Hnodup Hi Hlen. apply map_eq. intros k.
  destruct (decide (k = "identity")) as [->|Hk].
  - rewrite lookup_insert_eq. apply normalized_positional with i; [done..|].
    by apply list_lookup_insert_eq.
  - rewrite lookup_insert_ne by done. unfold normalized, update.
    rewrite !lookup_union. f_equal. apply option_eq. intros x.
    rewrite !dict_zip_lookup_Some by done.
    split; intros (j & Hj & Hx); exists j; (split; [done|]);
      (destruct (decide (i = j)) as [->|Hij]; [congruence|]).
    + by rewrite list_lookup_insert_ne in Hx.
    + by rewrite list_lookup_insert_ne.
Qed.

Lemma normalized_insert_keyword func args kwargs k v :
  k ∉ take (length args) (getfullargspec_args func) →
  normalized func args (<[k := v]> kwargs)
    = <[k := v]> (normalized func args kwargs).
Proof.
  intros Hk. unfold normalized, update. symmetry.
  by apply insert_union_r, dict_zip_lookup_None.
Qed.

(** X1: the last positional argument can as well be given by keyword, under
    the name of the parameter it reaches: the wrapped call is the same. *)
Theorem last_positional_as_keyword func args kwargs p v st :
  NoDup (getfullargspec_args func) →
  getfullargspec_args func !! length args = Some p →
  identity_wrapper func (args ++ [v]) kwargs st
    = identity_wrapper func args (<[p := v]> kwargs) st.
Proof.
  intros Hnodup Hp. apply identity_wrapper_normalized.
  rewrite normalized_insert_keyword.
  - unfold normalized, update, dict.
    rewrite (zip_snoc _ _ p) by done.
    rewrite foldl_app. simpl. by rewrite insert_union_l.
  - intros (j & Hj & Hlt)%elem_of_take.
    pose proof (NoDup_lookup _ _ _ _ Hnodup Hj Hp). lia.
Qed.

(** X2: when the caller gave the identity positionally and the driver
    redirects, the second invocation is the one a call with the canonical
    identifier in that position would have made first, and the wrapped call
    ends as it does. *)
Theorem retry_as_positional_call func args kwargs i st c st1 :
  NoDup (getfullargspec_args func) →
  getfullargspec_args func !! i = Some "identity" → i < length args →
  invoke func [] (normalized func args kwargs) st
    = (Raise (AliasAccessError c), st1) →
  calls (identity_wrapper func args kwargs st)
    = [([], normalized func args kwargs);
       ([], normalized func (<[i := VStr c]> args) kwargs)]
  ∧ (outcome (identity_wrapper func args kwargs st),
     final (identity_wrapper func args kwargs st))
    = invoke func [] (normalized func (<[i := VStr c]> args) kwargs) st1.
Proof.
  intros Hnodup Hi Hlen Hfirst.
  assert ("identity" ∈ getfullargspec_args func) as Hid
    by by eapply list_elem_of_lookup_2.
  rewrite normalized_insert_positional by done.
  destruct (invoke func []
    (<["identity" := VStr c]> (normalized func args kwargs)) st1)
    as [r st2] eqn:Hsecond.
  by rewrite (identity_wrapper_retry _ _ _ _ _ _ _ _ Hid Hfirst Hsecond).
Qed.

(** X3: the same when the caller gave the identity by keyword. *)
Theorem retry_as_keyword_call func args kwargs st c st1 :
  "identity" ∈ getfullargspec_args func →
  "identity" ∉ take (length args) (getfullargspec_args func) →
  invoke func [] (normalized func args kwargs) st
    = (Raise (AliasAccessError c), st1) →
  calls (identity_wrapper func args kwargs st)
    = [([], normalized func args kwargs);
       ([], normalized func args (<["identity" := VStr c]> kwargs))]
  ∧ (outcome (identity_wrapper func args kwargs st),
     final (identity_wrapper func args kwargs st))
    = invoke func [] (normalized func args (<["identity" := VStr c]> kwargs)) st1.
Proof.
  intros Hid Hkey Hfirst.
  rewrite normalized_insert_keyword by done.
  destruct (invoke func []
    (<["identity" := VStr c]> (normalized func args kwargs)) st1)
    as [r st2] eqn:Hsecond.
  by rewrite (identity_wrapper_retry _ _ _ _ _ _ _ _ Hid Hfirst Hsecond).
Qed.

(** X4: the decorator does not stack: the closure it returns declares no
    parameter named [identity], so decorating it again gives an operation
    whose every call raises the [ValueError] and never reaches [func]. *)
Theorem wrapping_twice_always_fails func wrapped :
  wrapped_identity func = Return wrapped →
  ∃ twice,
    wrapped_identity wrapped = Return twice
    ∧ ∀ args kwargs st,
        invoke twice args kwargs st = (Raise (ValueError identity_error), st).
Proof.
  intros [= <-]. eexists. split; [done|]. intros args kwargs st.
  cbn [invoke]. rewrite identity_wrapper_no_identity; [done|].
  cbn [getfullargspec_args]. apply not_elem_of_nil.
Qed.

(** X5: the wrapper touches the driver through its invocations only: with
    none made the state is as it was and the outcome is the [ValueError];
    otherwise replaying the recorded invocations on the driver gives the
    outcome and the final state of the call. *)
Theorem run_is_replay_of_calls func args kwargs st :
  let r := identity_wrapper func args kwargs st in
  match calls r with
  | [] =>
      ("identity" ∉ getfullargspec_args func)
      ∧ outcome r = Raise (ValueError identity_error) ∧ final r = st
  | _ :: _ =>
      "identity" ∈ getfullargspec_args func
      ∧ replay func (calls r) st = Some (outcome r, final r)
  end.
Proof.
  intros r. subst r.
  destruct (identity_wrapper_cases func args kwargs st)
    as [[Hno ->]|[(r & st1 & Hid & Hfirst & Hr & ->)
                 |(c & st1 & r & st2 & Hid & Hfirst & Hsecond & ->)]];
    simpl; [done|by rewrite Hfirst|].
  rewrite Hfirst. simpl. by rewrite Hsecond.
Qed.

End Argument_sets.

(** * Wrapped and direct calls of a [def] *)

Section Wrapped_and_direct.

Context {St : Type}.
Implicit Types (fd : fundef St) (args : list value).
Implicit Types (kwargs kw bound : gmap string value) (st : St).

(** No keyword offends exactly when each names a parameter that no positional
    argument has filled. *)
Lemma keyword_error_None fd args kwargs :
  keyword_error fd args kwargs = None
  ↔ ∀ k, is_Some (kwargs !! k) →
         k ∈ params fd ∧ k ∉ take (length args) (params fd).
Proof.
  split.
  - intros Hnone k [x Hk]. unfold keyword_error in Hnone.
    destruct (filter _ _) as [|k' rest] eqn:Hfilter; [|done].
    destruct (decide (k ∈ params fd)) as [Hin|Hout];
      [destruct (decide (k ∈ take (length args) (params fd))) as [Hfilled|]|];
      [|done|]; exfalso;
      (assert (k ∈ @nil string) as Hnil; [|by apply elem_of_nil in Hnil]);
      rewrite <- Hfilter; apply list_elem_of_filter;
      (split; [auto|]); apply list_elem_of_fmap; exists (k, x);
      (split; [done|]); by apply elem_of_map_to_list.
  - intros Hall. destruct (keyword_error fd args kwargs) as [why|] eqn:Hkw;
      [|done].
    apply keyword_error_Some in Hkw as (k & Hk & Hoffends & _).
    destruct (Hall k Hk). by destruct Hoffends.
Qed.

(** A call by keyword only binds the keywords over the defaults. *)
Lemma bind_arguments_by_keyword fd kw :
  bind_arguments fd [] kw
  = match keyword_error fd [] kw with
    | Some why => Raise (TypeError why)
    | None =>
        if decide (Forall (λ p, is_Some ((kw ∪ defaults fd) !! p)) (params fd))
        then Return (kw ∪ defaults fd)
        else Raise (TypeError MissingArgument)
    end.
Proof.
  unfold bind_arguments. destruct (keyword_error fd [] kw); [done|].
  destruct (decide (_ < _)) as [Hlt|_]; [simpl in Hlt; lia|].
  rewrite zip_with_nil_r. change (dict []) with (∅ : gmap string value).
  by rewrite (left_id_L ∅ (∪)).
Qed.

Lemma dict_zip_is_Some (ps : list string) args k :
  is_Some (dict (zip ps args) !! k) → k ∈ take (length args) ps.
Proof.
  intros [x Hk]. destruct (decide (k ∈ take (length args) ps)); [done|].
  rewrite dict_zip_lookup_None in Hk by done. done.
Qed.

Lemma elem_of_take_elem_of (ps : list string) n k : k ∈ take n ps → k ∈ ps.
Proof.
  intros (i & Hi & _)%elem_of_take. by eapply list_elem_of_lookup_2.
Qed.

(** Arguments that bind in a direct call bind the same once keyed. *)
Lemma bind_arguments_normalized fd args kwargs bound :
  bind_arguments fd args kwargs = Return bound →
  bind_arguments fd [] (normalized (def fd) args kwargs) = Return bound.
Proof.
  unfold bind_arguments at 1.
  destruct (keyword_error fd args kwargs) eqn:Hkw; [done|].
  destruct (decide (_ < _)); [done|].
  destruct (decide (Forall _ _)) as [Hall|]; [|done]. intros [= <-].
  rewrite bind_arguments_by_keyword.
  assert (keyword_error fd [] (normalized (def fd) args kwargs) = None) as ->.
  { apply keyword_error_None. intros k Hk. split; [|apply not_elem_of_nil].
    unfold normalized, update in Hk. rewrite lookup_union in Hk.
    apply union_is_Some in Hk as [Hk|Hk].
    - eapply elem_of_take_elem_of, dict_zip_is_Some, Hk.
    - rewrite keyword_error_None in Hkw. by apply Hkw. }
  unfold normalized, update. simpl. by rewrite decide_True.
Qed.

(** X6: a call whose arguments bind, and which the driver does not redirect,
    goes through the wrapper as it goes directly: same outcome, same final
    state, one invocation. *)
Theorem wrapped_call_as_direct_call fd args kwargs st bound :
  "identity" ∈ params fd →
  bind_arguments fd args kwargs = Return bound →
  raises_signal (body fd bound st).1 = false →
  (outcome (identity_wrapper (def fd) args kwargs st),
   final (identity_wrapper (def fd) args kwargs st))
    = invoke (def fd) args kwargs st
  ∧ calls (identity_wrapper (def fd) args kwargs st)
    = [([], normalized (def fd) args kwargs)].
Proof.
  intros Hid Hbind Hcanonical.
  pose proof (bind_arguments_normalized _ _ _ _ Hbind) as Hkeyed.
  destruct (body fd bound st) as [r st1] eqn:Hbody.
  rewrite (identity_wrapper_once (def fd) args kwargs st r st1); [|done| |done].
  - simpl. by rewrite Hbind, Hbody.
  - simpl. by rewrite Hkeyed.
Qed.

(** X7: a keyword that names no parameter is still refused: the wrapped call
    raises the [TypeError] after one invocation, the body has not run and
    the state is as it was. *)
Theorem unknown_keyword_refused fd args kwargs k v st :
  "identity" ∈ params fd →
  kwargs !! k = Some v → k ∉ params fd →
  identity_wrapper (def fd) args kwargs st
    = Run (Raise (TypeError UnexpectedKeyword)) st
        [([], normalized (def fd) args kwargs)].
Proof.
  intros Hid Hk Hout.
  apply identity_wrapper_once; [done| |done]. simpl.
  rewrite bind_arguments_by_keyword.
  destruct (keyword_error fd [] (normalized (def fd) args kwargs))
    as [why|] eqn:Hkw.
  - by apply keyword_error_no_positional in Hkw as ->.
  - rewrite keyword_error_None in Hkw. destruct (Hkw k); [|done].
    rewrite normalized_keyword; [by eexists|].
    intros Hin. by apply elem_of_take_elem_of in Hin.
Qed.

(** X8: a parameter that the call leaves out and that has no default makes
    the wrapped call raise the [TypeError] of the missing argument, after one
    invocation, the body not run; so does a call that leaves out the
    identity. *)
Theorem missing_argument_refused fd args kwargs p st :
  "identity" ∈ params fd →
  (∀ k, is_Some (kwargs !! k) → k ∈ params fd) →
  p ∈ params fd →
  normalized (def fd) args kwargs !! p = None → defaults fd !! p = None →
  identity_wrapper (def fd) args kwargs st
    = Run (Raise (TypeError MissingArgument)) st
        [([], normalized (def fd) args kwargs)].
Proof.
  intros Hid Hdeclared Hp Hkeyed Hdefault.
  apply identity_wrapper_once; [done| |done]. simpl.
  rewrite bind_arguments_by_keyword.
  assert (keyword_error fd [] (normalized (def fd) args kwargs) = None) as ->.
  { apply keyword_error_None. intros k Hk. split; [|apply not_elem_of_nil].
    unfold normalized, update in Hk. rewrite lookup_union in Hk.
    apply union_is_Some in Hk as [Hk|Hk]; [|by apply Hdeclared].
    eapply elem_of_take_elem_of, dict_zip_is_Some, Hk. }
  destruct (decide (Forall _ _)) as [Hall|]; [|done]. exfalso.
  rewrite Forall_forall in Hall. destruct (Hall p Hp) as [x Hx].
  rewrite lookup_union_r in Hx by done. congruence.
Qed.

(** X9: once the first invocation has bound its arguments, the retry binds
    too and runs the body on the same parameters, defaults included, with
    only [identity] replaced by the payload of the signal. *)
Theorem retry_runs_body_with_new_identity fd args kwargs st bound c st1 :
  "identity" ∈ params fd →
  bind_arguments fd [] (normalized (def fd) args kwargs) = Return bound →
  body fd bound st = (Raise (AliasAccessError c), st1) →
  (outcome (identity_wrapper (def fd) args kwargs st),
   final (identity_wrapper (def fd) args kwargs st))
    = body fd (<["identity" := VStr c]> bound) st1.
Proof.
  intros Hid Hbind Hbody.
  assert (bind_arguments fd []
            (<["identity" := VStr c]> (normalized (def fd) args kwargs))
          = Return (<["identity" := VStr c]> bound)) as Hretry.
  { rewrite bind_arguments_by_keyword in Hbind |- *.
    destruct (keyword_error fd [] (normalized (def fd) args kwargs))
      eqn:Hkw; [done|].
    destruct (decide (Forall _ _)) as [Hall|]; [|done].
    injection Hbind as <-.
    assert (keyword_error fd []
              (<["identity" := VStr c]> (normalized (def fd) args kwargs))
            = None) as ->.
    { rewrite keyword_error_None in Hkw |- *. intros k Hk.
      split; [|apply not_elem_of_nil].
      destruct (decide (k = "identity")) as [->|Hne]; [done|].
      rewrite lookup_insert_ne in Hk by done. by apply Hkw. }
    rewrite <- insert_union_l. rewrite decide_True; [done|].
    eapply Forall_impl; [exact Hall|]. intros q Hq. simpl in *.
    destruct (decide (q = "identity")) as [->|Hne].
    - rewrite lookup_insert_eq. by eexists.
    - by rewrite lookup_insert_ne. }
  destruct (body fd (<["identity" := VStr c]> bound) st1)
    as [r st2] eqn:Hsecond.
  rewrite (identity_wrapper_retry (def fd) args kwargs st c st1 r st2);
    [done|done| |]; simpl.
  - by rewrite Hbind.
  - by rewrite Hretry.
Qed.

End Wrapped_and_direct.

(** * The accessors of the by-name driver *)

Section Accessors.

Context {St : Type}.
Variable DriverBase : string → value → list value → St → result value * St.
Implicit Types (self identity device : value) (xs : list value) (st : St).
Implicit Types (extra : list string) (dflt : gmap string value).

(** Called by keyword with every parameter keyed, an accessor calls the base
    method with the identity and the other arguments in declared order. *)
Lemma accessor_first_invocation method extra dflt self identity xs st :
  NoDup ("self" :: "identity" :: extra) → length xs = length extra →
  invoke (def (LibvirtDriver.accessor DriverBase method extra dflt)) []
    (normalized (def (LibvirtDriver.accessor DriverBase method extra dflt))
       (self :: identity :: xs) ∅) st
  = DriverBase method self (identity :: xs) st.
Proof.
  intros Hnodup Hlen.
  set (fd := LibvirtDriver.accessor DriverBase method extra dflt).
  set (ps := "self" :: "identity" :: extra) in *.
  set (args := self :: identity :: xs).
  assert (∀ i p v, ps !! i = Some p → args !! i = Some v →
            (normalized (def fd) args ∅ ∪ dflt) !! p = Some v) as Hkeyed.
  { intros i p v Hp Hv. apply lookup_union_Some_l.
    by apply (normalized_positional (def fd)) with i. }
  assert (bind_arguments fd [] (normalized (def fd) args ∅)
          = Return (normalized (def fd) args ∅ ∪ dflt)) as Hbind.
  { rewrite bind_arguments_by_keyword.
    assert (keyword_error fd [] (normalized (def fd) args ∅) = None) as ->.
    { apply keyword_error_None. intros k Hk. split; [|apply not_elem_of_nil].
      unfold normalized, update in Hk.
      rewrite (right_id_L ∅ (∪)) in Hk.
      eapply elem_of_take_elem_of, dict_zip_is_Some, Hk. }
    rewrite decide_True; [done|]. apply Forall_forall. intros p Hp.
    apply list_elem_of_lookup in Hp as [i Hi].
    destruct (lookup_lt_is_Some_2 args i) as [v Hv].
    { apply lookup_lt_Some in Hi. subst ps args. simpl in *. lia. }
    exists v. by apply Hkeyed with i. }
  cbn [invoke def]. rewrite Hbind. cbn [body fd LibvirtDriver.accessor].
  unfold LibvirtDriver.delegate.
  rewrite (Hkeyed 0 "self" self) by done.
  assert (mapM (λ p, (normalized (def fd) args ∅ ∪ dflt) !! p)
            ("identity" :: extra) = Some (identity :: xs)) as ->; [|done].
  apply mapM_Some_2, Forall2_same_length_lookup_2; [simpl; lia|].
  intros i p v Hp Hv. by apply Hkeyed with (S i).
Qed.

(** X10: a wrapped accessor called positionally calls the base method with
    the identity and the other arguments in the order given; when the base
    method answers with the redirect signal, it calls it once more with the
    payload for identity and the same other arguments, and ends as that call
    ends. *)
Theorem accessor_redirects method extra dflt self identity xs st :
  NoDup ("self" :: "identity" :: extra) → length xs = length extra →
  let r :=
    identity_wrapper (def (LibvirtDriver.accessor DriverBase method extra dflt))
      (self :: identity :: xs) ∅ st in
  (outcome r, final r)
    = match DriverBase method self (identity :: xs) st with
      | (Raise (AliasAccessError c), st1) =>
          DriverBase method self (VStr c :: xs) st1
      | ended => ended
      end.
Proof.
  intros Hnodup Hlen r. subst r.
  set (fd := LibvirtDriver.accessor DriverBase method extra dflt).
  pose proof (accessor_first_invocation method extra dflt self identity xs st
                Hnodup Hlen) as Hfirst. fold fd in Hfirst.
  assert ("identity" ∈ getfullargspec_args (def fd)) as Hid
    by (right; left).
  destruct (DriverBase method self (identity :: xs) st) as [r st1] eqn:Hbase.
  destruct (raises_signal r) eqn:Hr.
  - destruct r as [v|[c| | |]]; try done.
    pose proof (accessor_first_invocation method extra dflt self (VStr c) xs
                  st1 Hnodup Hlen) as Hsecond. fold fd in Hsecond.
    change (self :: VStr c :: xs)
      with (<[1 := VStr c]> (self :: identity :: xs)) in Hsecond.
    rewrite normalized_insert_positional in Hsecond;
      [|done|done|simpl; lia].
    destruct (DriverBase method self (VStr c :: xs) st1) as [r2 st2].
    by rewrite (identity_wrapper_retry _ _ _ _ _ _ _ _ Hid Hfirst Hsecond).
  - rewrite (identity_wrapper_once _ _ _ _ _ _ Hid Hfirst Hr).
    by destruct r as [v|[]].
Qed.

(** X11: [set_boot_image] called without [boot_image] and [write_protected]
    passes the base method their defaults, [None] and [True], on the first
    call and on the retry alike. *)
Theorem set_boot_image_defaults self identity device st :
  let r :=
    identity_wrapper (def (LibvirtDriver.set_boot_image DriverBase))
      [self; identity; device] ∅ st in
  (outcome r, final r)
    = match DriverBase "set_boot_image" self
              [identity; device; VNone; VBool true] st with
      | (Raise (AliasAccessError c), st1) =>
          DriverBase "set_boot_image" self
            [VStr c; device; VNone; VBool true] st1
      | ended => ended
      end.
Proof.
  intros r. subst r.
  set (fd := LibvirtDriver.set_boot_image DriverBase).
  assert ("identity" ∈ getfullargspec_args (def fd)) as Hid by (right; left).
  assert (∀ st0, invoke (def fd) []
                   (normalized (def fd) [self; identity; device] ∅) st0
                 = DriverBase "set_boot_image" self
                     [identity; device; VNone; VBool true] st0) as Hcall
    by reflexivity.
  assert (∀ c st0, invoke (def fd) []
                     (<["identity" := VStr c]>
                        (normalized (def fd) [self; identity; device] ∅)) st0
                   = DriverBase "set_boot_image" self
                       [VStr c; device; VNone; VBool true] st0) as Hretry
    by reflexivity.
  pose proof (Hcall st) as Hfirst.
  destruct (DriverBase "set_boot_image" self
              [identity; device; VNone; VBool true] st) as [r st1].
  destruct (raises_signal r) eqn:Hr.
  - destruct r as [v|[c| | |]]; try discriminate Hr.
    pose proof (Hretry c st1) as Hsecond.
    destruct (DriverBase "set_boot_image" self
                [VStr c; device; VNone; VBool true] st1) as [r2 st2].
    rewrite (identity_wrapper_retry _ _ _ _ _ _ _ _ Hid Hfirst Hsecond).
    reflexivity.
  - rewrite (identity_wrapper_once _ _ _ _ _ _ Hid Hfirst Hr).
    destruct r as [v|[]]; first [discriminate Hr|reflexivity].
Qed.

(** X12: every function that the class decorates declares [identity], so
    a call of a wrapped accessor, whatever its arguments, never stops at the
    wrapper's own [ValueError]: it ends as the invocation of the function on
    the keyed arguments ends or, after a redirect signal, as the invocation
    with the payload for [identity] ends. *)
Theorem decorated_accessors_are_invoked :
  Forall
    (λ fd, ∀ args kwargs st,
       (outcome (identity_wrapper (def fd) args kwargs st),
        final (identity_wrapper (def fd) args kwargs st))
         = match invoke (def fd) [] (normalized (def fd) args kwargs) st with
           | (Raise (AliasAccessError c), st1) =>
               invoke (def fd) []
                 (<["identity" := VStr c]> (normalized (def fd) args kwargs))
                 st1
           | ended => ended
           end)
    (LibvirtDriver.decorated DriverBase).
Proof.
  unfold LibvirtDriver.decorated.
  repeat (apply Forall_cons; split;
          [intros args kwargs st; apply identity_wrapper_ends; right; left|]).
  apply Forall_nil_2.
Qed.

End Accessors.

Section Systems_inversion.

Context {St conn domain : Type}.
Variable listAllDomains : conn → St → result (list domain) * St.
Variable name : domain → result string.
Variable libvirt_open_enter : string → bool → St → result conn * St.
Variable libvirt_open_exit : conn → St → St.

(** X13: whatever [systems] returns is the list of the names of the domains
    that an opened, read-only connection enumerated, and that connection has
    been closed; it returns nothing when the connection failed to open, the
    enumeration failed or a name could not be read. *)
Theorem systems_returns_only_names (uri : string) (st : St) ns st' :
  systems listAllDomains name libvirt_open_enter libvirt_open_exit uri st
    = (Return ns, st') →
  ∃ c st1 domains st2,
    libvirt_open_enter uri true st = (Return c, st1)
    ∧ listAllDomains c st1 = (Return domains, st2)
    ∧ Forall2 (λ d n, name d = Return n) domains ns
    ∧ st' = libvirt_open_exit c st2.
Proof.
  unfold systems, with_libvirt_open.
  destruct (libvirt_open_enter uri true st) as [[c|e] st1] eqn:Hopen; [|done].
  destruct (listAllDomains c st1) as [[domains|e] st2] eqn:Hlist; [|done].
  intros [= Hnames <-]. exists c, st1, domains, st2.
  split_and!; [done|done| |done]. by apply names_Return.
Qed.

End Systems_inversion.

(** * The further properties, run on the lab *)

Lemma last_positional_as_keyword_witness :
  identity_wrapper (def get_power_state) ([VRef 0] ++ [VStr "web-vm"]) ∅ lab
    = identity_wrapper (def get_power_state) [VRef 0]
        (<["identity" := VStr "web-vm"]> ∅) lab.
Proof.
  apply (last_positional_as_keyword (def get_power_state) [VRef 0] ∅
           "identity" (VStr "web-vm") lab); [compute_done|reflexivity].
Defined.

Lemma retry_as_positional_call_witness :
  calls (identity_wrapper (def get_power_state) [VRef 0; VStr "web-vm"] ∅ lab)
    = [([], normalized (def get_power_state) [VRef 0; VStr "web-vm"] ∅);
       ([], normalized (def get_power_state)
              (<[1 := VStr "3b2f-uuid"]> [VRef 0; VStr "web-vm"]) ∅)]
  ∧ (outcome (identity_wrapper (def get_power_state)
                [VRef 0; VStr "web-vm"] ∅ lab),
     final (identity_wrapper (def get_power_state)
              [VRef 0; VStr "web-vm"] ∅ lab))
    = invoke (def get_power_state) []
        (normalized (def get_power_state)
           (<[1 := VStr "3b2f-uuid"]> [VRef 0; VStr "web-vm"]) ∅) lab.
Proof.
  apply (retry_as_positional_call (def get_power_state)
           [VRef 0; VStr "web-vm"] ∅ 1 lab "3b2f-uuid" lab);
    [compute_done|reflexivity|simpl; lia|reflexivity].
Defined.

Lemma retry_as_keyword_call_witness :
  calls (identity_wrapper (def get_power_state) [VRef 0]
           {["identity" := VStr "web-vm"]} lab)
    = [([], normalized (def get_power_state) [VRef 0]
              {["identity" := VStr "web-vm"]});
       ([], normalized (def get_power_state) [VRef 0]
              (<["identity" := VStr "3b2f-uuid"]>
                 {["identity" := VStr "web-vm"]}))]
  ∧ (outcome (identity_wrapper (def get_power_state) [VRef 0]
                {["identity" := VStr "web-vm"]} lab),
     final (identity_wrapper (def get_power_state) [VRef 0]
              {["identity" := VStr "web-vm"]} lab))
    = invoke (def get_power_state) []
        (normalized (def get_power_state) [VRef 0]
           (<["identity" := VStr "3b2f-uuid"]>
              {["identity" := VStr "web-vm"]})) lab.
Proof.
  apply (retry_as_keyword_call (def get_power_state) [VRef 0]
           {["identity" := VStr "web-vm"]} lab "3b2f-uuid" lab);
    [compute_done|compute_done|reflexivity].
Defined.

Lemma wrapping_twice_always_fails_witness :
  ∃ wrapped twice,
    wrapped_identity (def get_power_state) = Return wrapped
    ∧ wrapped_identity wrapped = Return twice
    ∧ ∀ args kwargs st,
        invoke twice args kwargs st = (Raise (ValueError identity_error), st).
Proof.
  destruct (wrapping_twice_always_fails (def get_power_state) _ eq_refl)
    as (twice & Htwice & Hfails).
  eexists _, twice. split; [reflexivity|]. split; assumption.
Defined.

Lemma wrapped_call_as_direct_call_witness :
  (outcome (identity_wrapper (def get_power_state)
              [VRef 0; VStr "3b2f-uuid"] ∅ lab),
   final (identity_wrapper (def get_power_state)
            [VRef 0; VStr "3b2f-uuid"] ∅ lab))
    = invoke (def get_power_state) [VRef 0; VStr "3b2f-uuid"] ∅ lab
  ∧ calls (identity_wrapper (def get_power_state)
             [VRef 0; VStr "3b2f-uuid"] ∅ lab)
    = [([], normalized (def get_power_state) [VRef 0; VStr "3b2f-uuid"] ∅)].
Proof.
  apply (wrapped_call_as_direct_call get_power_state
           [VRef 0; VStr "3b2f-uuid"] ∅ lab
           (dict [("self", VRef 0); ("identity", VStr "3b2f-uuid")]));
    [compute_done|reflexivity|reflexivity].
Defined.

Lemma unknown_keyword_refused_witness :
  identity_wrapper (def get_power_state) [VRef 0; VStr "web-vm"]
      {["verbose" := VBool true]} lab
    = Run (Raise (TypeError UnexpectedKeyword)) lab
        [([], normalized (def get_power_state) [VRef 0; VStr "web-vm"]
                {["verbose" := VBool true]})].
Proof.
  apply (unknown_keyword_refused get_power_state [VRef 0; VStr "web-vm"]
           {["verbose" := VBool true]} "verbose" (VBool true) lab);
    [compute_done|reflexivity|compute_done].
Defined.

Lemma missing_argument_refused_witness :
  identity_wrapper (def get_power_state) [VRef 0] ∅ lab
    = Run (Raise (TypeError MissingArgument)) lab
        [([], normalized (def get_power_state) [VRef 0] ∅)].
Proof.
  apply (missing_argument_refused get_power_state [VRef 0] ∅ "identity" lab);
    [compute_done| |compute_done|reflexivity|reflexivity].
  intros k [x Hx]. rewrite lookup_empty in Hx. discriminate Hx.
Defined.

Lemma retry_runs_body_with_new_identity_witness :
  (outcome (identity_wrapper (def get_power_state)
              [VRef 0; VStr "web-vm"] ∅ lab),
   final (identity_wrapper (def get_power_state)
            [VRef 0; VStr "web-vm"] ∅ lab))
    = body get_power_state
        (<["identity" := VStr "3b2f-uuid"]>
           (dict [("self", VRef 0); ("identity", VStr "web-vm")])) lab.
Proof.
  apply (retry_runs_body_with_new_identity get_power_state
           [VRef 0; VStr "web-vm"] ∅ lab
           (dict [("self", VRef 0); ("identity", VStr "web-vm")])
           "3b2f-uuid" lab);
    [compute_done|reflexivity|reflexivity].
Defined.

Lemma accessor_redirects_witness :
  let r :=
    identity_wrapper
      (def (LibvirtDriver.accessor lab_base "set_power_state" ["state"] ∅))
      (VRef 0 :: VStr "web-vm" :: [VStr "Off"]) ∅ lab in
  (outcome r, final r)
    = match lab_base "set_power_state" (VRef 0)
              (VStr "web-vm" :: [VStr "Off"]) lab with
      | (Raise (AliasAccessError c), st1) =>
          lab_base "set_power_state" (VRef 0) (VStr c :: [VStr "Off"]) st1
      | ended => ended
      end.
Proof.
  apply (accessor_redirects lab_base "set_power_state" ["state"] ∅
           (VRef 0) (VStr "web-vm") [VStr "Off"] lab);
    [compute_done|reflexivity].
Defined.

Lemma systems_returns_only_names_witness :
  ∃ c st1 domains st2,
    lab_open "qemu:///system" true lab = (Return c, st1)
    ∧ lab_list c st1 = (Return domains, st2)
    ∧ Forall2 (λ d n, lab_name d = Return n) domains ["web-vm"; "db-vm"]
    ∧ lab = lab_close c st2.
Proof.
  apply (systems_returns_only_names lab_list lab_name lab_open lab_close
           "qemu:///system" lab ["web-vm"; "db-vm"] lab).
  reflexivity.
Defined.

(** Setting the power state by name reaches the machine: the base method
    runs on the canonical identifier and the hypervisor records the state. *)
Example set_power_state_by_name :
  let r :=
    identity_wrapper (def (LibvirtDriver.set_power_state lab_base))
      [VRef 0; VStr "web-vm"; VStr "Off"] ∅ lab in
  outcome r = Return VNone
  ∧ final r = [Machine "3b2f-uuid" "web-vm" "Off"; db_vm].
Proof. split; reflexivity. Qed.

(** * A call by alias as a direct call by canonical identifier *)

Section Alias_as_direct.

Context {St : Type}.
Implicit Types (fd : fundef St) (args : list value).
Implicit Types (kwargs kw bound : gmap string value) (st : St).

Lemma dict_zip_is_Some_iff (ps : list string) args k :
  is_Some (dict (zip ps args) !! k) ↔ k ∈ take (length args) ps.
Proof.
  split; [apply dict_zip_is_Some|]. intros Hk.
  destruct (dict (zip ps args) !! k) eqn:Hnone; [by eexists|].
  rewrite dict_reverse in Hnone. apply not_elem_of_list_to_map in Hnone.
  by rewrite fmap_reverse, elem_of_reverse, fst_zip_take in Hnone.
Qed.

(** Whether a call binds does not depend on the value of a positional
    argument. *)
Lemma bind_arguments_insert fd args kwargs bound i v :
  bind_arguments fd args kwargs = Return bound →
  ∃ bound', bind_arguments fd (<[i := v]> args) kwargs = Return bound'.
Proof.
  unfold bind_arguments, keyword_error. rewrite length_insert.
  destruct (filter _ _); [|done].
  destruct (decide (_ < _)); [done|].
  destruct (decide (Forall _ _)) as [Hall|]; [|done]. intros _.
  rewrite decide_True; [by eexists|].
  eapply Forall_impl; [exact Hall|]. intros p. simpl.
  rewrite !lookup_union, !union_is_Some, !dict_zip_is_Some_iff.
  by rewrite length_insert.
Qed.

(** X14: when a direct call would bind its arguments and the driver answers
    the identity, given positionally, with the redirect signal, the wrapped
    call ends as the direct call with the payload in place of the identity
    ends, made in the state the first invocation left. *)
Theorem alias_call_as_direct_call fd args kwargs i st bound c st1 :
  NoDup (params fd) →
  params fd !! i = Some "identity" → i < length args →
  bind_arguments fd args kwargs = Return bound →
  body fd bound st = (Raise (AliasAccessError c), st1) →
  (outcome (identity_wrapper (def fd) args kwargs st),
   final (identity_wrapper (def fd) args kwargs st))
    = invoke (def fd) (<[i := VStr c]> args) kwargs st1.
Proof.
  intros Hnodup Hi Hlen Hbind Hbody.
  assert ("identity" ∈ getfullargspec_args (def fd)) as Hid
    by by eapply list_elem_of_lookup_2.
  destruct (bind_arguments_insert fd args kwargs bound i (VStr c) Hbind)
    as [bound' Hbind'].
  pose proof (bind_arguments_normalized _ _ _ _ Hbind) as Hkeyed.
  pose proof (bind_arguments_normalized _ _ _ _ Hbind') as Hkeyed'.
  rewrite (normalized_insert_positional (def fd)) in Hkeyed' by done.
  destruct (body fd bound' st1) as [r st2] eqn:Hsecond.
  rewrite (identity_wrapper_retry (def fd) args kwargs st c st1 r st2);
    [|done| |]; simpl.
  - by rewrite Hbind', Hsecond.
  - by rewrite Hkeyed.
  - by rewrite Hkeyed'.
Qed.

End Alias_as_direct.

Lemma alias_call_as_direct_call_witness :
  (outcome (identity_wrapper (def get_power_state)
              [VRef 0; VStr "web-vm"] ∅ lab),
   final (identity_wrapper (def get_power_state)
            [VRef 0; VStr "web-vm"] ∅ lab))
    = invoke (def get_power_state)
        (<[1 := VStr "3b2f-uuid"]> [VRef 0; VStr "web-vm"]) ∅ lab.
Proof.
  apply (alias_call_as_direct_call get_power_state
           [VRef 0; VStr "web-vm"] ∅ 1 lab
           (dict [("self", VRef 0); ("identity", VStr "web-vm")])
           "3b2f-uuid" lab);
    [compute_done|reflexivity|simpl; lia|reflexivity|reflexivity].
Defined.

(** * What the wrapper's binding lets through *)

Section Binding_through_the_wrapper.

Context {St : Type}.
Implicit Types (fd : fundef St) (args : list value).
Implicit Types (kwargs kw bound : gmap string value) (st : St).

(** A keyed set that binds still binds with [identity] replaced. *)
Lemma bind_arguments_retry fd kw bound v :
  "identity" ∈ params fd →
  bind_arguments fd [] kw = Return bound →
  bind_arguments fd [] (<["identity" := v]> kw)
    = Return (<["identity" := v]> bound).
Proof.
  intros Hid. rewrite !bind_arguments_by_keyword.
  destruct (keyword_error fd [] kw) eqn:Hkw; [done|].
  destruct (decide (Forall _ _)) as [Hall|]; [|done]. intros [= <-].
  assert (keyword_error fd [] (<["identity" := v]> kw) = None) as ->.
  { rewrite keyword_error_None in Hkw |- *. intros k Hk.
    split; [|apply not_elem_of_nil].
    destruct (decide (k = "identity")) as [->|Hne]; [done|].
    rewrite lookup_insert_ne in Hk by done. by apply Hkw. }
  rewrite <- insert_union_l. rewrite decide_True; [done|].
  eapply Forall_impl; [exact Hall|]. intros q Hq. simpl in *.
  destruct (decide (q = "identity")) as [->|Hne].
  - rewrite lookup_insert_eq. by eexists.
  - by rewrite lookup_insert_ne.
Qed.

(** How the wrapped call of a [def] ends once its keyed arguments bind: as
    the body ends on the bound parameters or, after a redirect signal, on
    the same parameters with the payload for [identity]. *)
Lemma identity_wrapper_runs_body fd args kwargs st bound :
  "identity" ∈ params fd →
  bind_arguments fd [] (normalized (def fd) args kwargs) = Return bound →
  (outcome (identity_wrapper (def fd) args kwargs st),
   final (identity_wrapper (def fd) args kwargs st))
    = match body fd bound st with
      | (Raise (AliasAccessError c), st1) =>
          body fd (<["identity" := VStr c]> bound) st1
      | ended => ended
      end.
Proof.
  intros Hid Hbind.
  assert (∀ kw s, invoke (def fd) [] kw s
                  = match bind_arguments fd [] kw with
                    | Return b => body fd b s
                    | Raise e => (Raise e, s)
                    end) as Hinvoke by done.
  rewrite identity_wrapper_ends by done. rewrite Hinvoke, Hbind.
  destruct (body fd bound st) as [[v|[c| | |]] st1]; try done.
  by rewrite Hinvoke, (bind_arguments_retry _ _ _ _ Hid Hbind).
Qed.

(** A name that is no parameter is keyed by a keyword only. *)
Lemma normalized_outside_params fd args kwargs k :
  k ∉ params fd → normalized (def fd) args kwargs !! k = kwargs !! k.
Proof.
  intros Hk. apply normalized_keyword. intros Hin.
  by apply elem_of_take_elem_of in Hin.
Qed.

(** With a positional argument for every parameter and no keyword but names
    of parameters, the keyed set binds, over the defaults. *)
Lemma bind_arguments_all_positional fd args kwargs :
  (length (params fd) ≤ length args)%nat →
  (∀ k, is_Some (kwargs !! k) → k ∈ params fd) →
  bind_arguments fd [] (normalized (def fd) args kwargs)
    = Return (normalized (def fd) args kwargs ∪ defaults fd).
Proof.
  intros Hlen Hdeclared. rewrite bind_arguments_by_keyword.
  assert (keyword_error fd [] (normalized (def fd) args kwargs) = None) as ->.
  { apply keyword_error_None. intros k Hk. split; [|apply not_elem_of_nil].
    unfold normalized, update in Hk. rewrite lookup_union in Hk.
    apply union_is_Some in Hk as [Hk|Hk]; [|by apply Hdeclared].
    eapply elem_of_take_elem_of, dict_zip_is_Some, Hk. }
  rewrite decide_True; [done|]. apply Forall_forall. intros q Hq.
  unfold normalized, update. rewrite !lookup_union, !union_is_Some.
  left. left. apply dict_zip_is_Some_iff. simpl. by rewrite take_ge.
Qed.

(** C9: when a declared parameter is given both positionally and by
    keyword, the direct call fails binding its arguments (with the
    multiple-values error when every keyword names a parameter).  The
    wrapped call invokes the function by keyword only, which never fails
    with that error, on a keyed set that holds the positional value under
    the parameter's name; it ends as that invocation ends (or as the retry
    ends), and when the set binds the body runs with the positional
    value. *)
Theorem positional_overrides_keyword fd args kwargs i p v w st :
  NoDup (params fd) → "identity" ∈ params fd →
  params fd !! i = Some p → args !! i = Some v → kwargs !! p = Some w →
  let r := identity_wrapper (def fd) args kwargs st in
  let kw1 := normalized (def fd) args kwargs in
  (∃ why, invoke (def fd) args kwargs st = (Raise (TypeError why), st)
     ∧ ((∀ k, is_Some (kwargs !! k) → k ∈ params fd) → why = MultipleValues))
  ∧ kw1 !! p = Some v
  ∧ (outcome r, final r)
    = match invoke (def fd) [] kw1 st with
      | (Raise (AliasAccessError c), st1) =>
          invoke (def fd) [] (<["identity" := VStr c]> kw1) st1
      | ended => ended
      end
  ∧ (∃ rest, calls r = ([], kw1) :: rest)
  ∧ (∀ kw, bind_arguments fd [] kw ≠ Raise (TypeError MultipleValues))
  ∧ (∀ bound, bind_arguments fd [] kw1 = Return bound →
       bound !! p = Some v
       ∧ (outcome r, final r)
         = match body fd bound st with
           | (Raise (AliasAccessError c), st1) =>
               body fd (<["identity" := VStr c]> bound) st1
           | ended => ended
           end).
Proof.
  intros Hnodup Hid Hp Hv Hw r kw1. subst r kw1.
  assert (normalized (def fd) args kwargs !! p = Some v) as Hkey
    by by apply (normalized_positional (def fd)) with i.
  split_and!.
  - destruct (keyword_error_duplicate fd args kwargs i p v w Hp Hv Hw)
      as (why & Hkw & Hwhy).
    exists why. split; [|done]. simpl. unfold bind_arguments. by rewrite Hkw.
  - done.
  - by apply identity_wrapper_ends.
  - destruct (identity_wrapper_cases (def fd) args kwargs st)
      as [[Hno _]|[(? & ? & _ & _ & _ & ->)
                  |(? & ? & ? & ? & _ & _ & _ & ->)]];
      [done|by eexists..].
  - intros kw Hbind. by apply bind_arguments_no_positional in Hbind as [|].
  - intros bound Hbind. split.
    + rewrite bind_arguments_by_keyword in Hbind.
      destruct (keyword_error fd [] _); [done|].
      destruct (decide (Forall _ _)); [|done]. injection Hbind as <-.
      by apply lookup_union_Some_l.
    + by apply identity_wrapper_runs_body.
Qed.

(** C10: with more positional arguments than declared parameters the direct
    call fails binding its arguments (with the too-many-positional error
    when there is no keyword).  The wrapped call goes as if the extra
    arguments had not been given: they are keyed under no name, each
    declared parameter is keyed with the positional argument at its place,
    and the function is invoked by keyword only, which never fails with
    that error; the call ends as that invocation ends (or as the retry
    ends), and when every keyword names a parameter the set binds and the
    body runs on it. *)
Theorem extra_positionals_discarded fd args kwargs st :
  length (params fd) < length args →
  let r := identity_wrapper (def fd) args kwargs st in
  let kw1 := normalized (def fd) args kwargs in
  (∃ why, invoke (def fd) args kwargs st = (Raise (TypeError why), st))
  ∧ invoke (def fd) args ∅ st = (Raise (TypeError TooManyPositional), st)
  ∧ r = identity_wrapper (def fd) (take (length (params fd)) args) kwargs st
  ∧ (∀ k, k ∉ params fd → kw1 !! k = kwargs !! k)
  ∧ (NoDup (params fd) →
     ∀ j q, params fd !! j = Some q → kw1 !! q = args !! j)
  ∧ (∀ kw, bind_arguments fd [] kw ≠ Raise (TypeError TooManyPositional))
  ∧ ("identity" ∈ params fd →
     (outcome r, final r)
       = match invoke (def fd) [] kw1 st with
         | (Raise (AliasAccessError c), st1) =>
             invoke (def fd) [] (<["identity" := VStr c]> kw1) st1
         | ended => ended
         end)
  ∧ ("identity" ∈ params fd →
     (∀ k, is_Some (kwargs !! k) → k ∈ params fd) →
     bind_arguments fd [] kw1 = Return (kw1 ∪ defaults fd)
     ∧ (outcome r, final r)
       = match body fd (kw1 ∪ defaults fd) st with
         | (Raise (AliasAccessError c), st1) =>
             body fd (<["identity" := VStr c]> (kw1 ∪ defaults fd)) st1
         | ended => ended
         end).
Proof.
  intros Hlen r kw1. subst r kw1. split_and!.
  - simpl. unfold bind_arguments.
    destruct (keyword_error fd args kwargs); [by eexists|].
    rewrite decide_True by done. by eexists.
  - simpl. unfold bind_arguments, keyword_error.
    rewrite map_to_list_empty. simpl. by rewrite decide_True.
  - unfold identity_wrapper. simpl. by rewrite zip_with_take_r.
  - intros k Hk. by apply normalized_outside_params.
  - intros Hnodup j q Hq.
    destruct (lookup_lt_is_Some_2 args j) as [x Hx].
    { apply lookup_lt_Some in Hq. lia. }
    rewrite Hx. by apply (normalized_positional (def fd)) with j.
  - intros kw Hbind. by apply bind_arguments_no_positional in Hbind as [|].
  - intros Hid. by apply identity_wrapper_ends.
  - intros Hid Hdeclared.
    assert (bind_arguments fd [] (normalized (def fd) args kwargs)
            = Return (normalized (def fd) args kwargs ∪ defaults fd)) as Hbind
      by (apply bind_arguments_all_positional; [lia|done]).
    split; [done|]. by apply identity_wrapper_runs_body.
Qed.

End Binding_through_the_wrapper.

(** [get_power_state(self, "web-vm", identity="db-vm")]: the direct call is
    refused, the wrapped call answers for ["web-vm"], which is on. *)
Lemma positional_overrides_keyword_witness :
  let r :=
    identity_wrapper (def get_power_state) [VRef 0; VStr "web-vm"]
      {["identity" := VStr "db-vm"]} lab in
  let kw1 :=
    normalized (def get_power_state) [VRef 0; VStr "web-vm"]
      {["identity" := VStr "db-vm"]} in
  ((∃ why,
      invoke (def get_power_state) [VRef 0; VStr "web-vm"]
          {["identity" := VStr "db-vm"]} lab
        = (Raise (TypeError why), lab)
      ∧ ((∀ k, is_Some (({["identity" := VStr "db-vm"]}
                          : gmap string value) !! k)
            → k ∈ params get_power_state)
         → why = MultipleValues))
   ∧ kw1 !! "identity" = Some (VStr "web-vm")
   ∧ (outcome r, final r)
     = match invoke (def get_power_state) [] kw1 lab with
       | (Raise (AliasAccessError c), st1) =>
           invoke (def get_power_state) []
             (<["identity" := VStr c]> kw1) st1
       | ended => ended
       end
   ∧ (∃ rest, calls r = ([], kw1) :: rest)
   ∧ (∀ kw, bind_arguments get_power_state [] kw
              ≠ Raise (TypeError MultipleValues))
   ∧ (∀ bound, bind_arguments get_power_state [] kw1 = Return bound →
        bound !! "identity" = Some (VStr "web-vm")
        ∧ (outcome r, final r)
          = match body get_power_state bound lab with
            | (Raise (AliasAccessError c), st1) =>
                body get_power_state (<["identity" := VStr c]> bound) st1
            | ended => ended
            end))
  ∧ outcome r = Return (VStr "On").
Proof.
  split; [|reflexivity].
  apply (positional_overrides_keyword get_power_state
           [VRef 0; VStr "web-vm"] {["identity" := VStr "db-vm"]}
           1 "identity" (VStr "web-vm") (VStr "db-vm") lab);
    [compute_done|compute_done|reflexivity..].
Defined.

(** [get_power_state(self, "web-vm", 7)]: the direct call is refused, the
    wrapped call answers for ["web-vm"]. *)
Lemma extra_positionals_discarded_witness :
  let r :=
    identity_wrapper (def get_power_state)
      [VRef 0; VStr "web-vm"; VInt 7] ∅ lab in
  let kw1 :=
    normalized (def get_power_state) [VRef 0; VStr "web-vm"; VInt 7] ∅ in
  ((∃ why,
      invoke (def get_power_state) [VRef 0; VStr "web-vm"; VInt 7] ∅ lab
        = (Raise (TypeError why), lab))
   ∧ invoke (def get_power_state) [VRef 0; VStr "web-vm"; VInt 7] ∅ lab
       = (Raise (TypeError TooManyPositional), lab)
   ∧ r = identity_wrapper (def get_power_state)
           (take (length (params get_power_state))
              [VRef 0; VStr "web-vm"; VInt 7]) ∅ lab
   ∧ (∀ k, k ∉ params get_power_state →
        kw1 !! k = (∅ : gmap string value) !! k)
   ∧ (NoDup (params get_power_state) →
      ∀ j q, params get_power_state !! j = Some q →
             kw1 !! q = [VRef 0; VStr "web-vm"; VInt 7] !! j)
   ∧ (∀ kw, bind_arguments get_power_state [] kw
              ≠ Raise (TypeError TooManyPositional))
   ∧ ("identity" ∈ params get_power_state →
      (outcome r, final r)
        = match invoke (def get_power_state) [] kw1 lab with
          | (Raise (AliasAccessError c), st1) =>
              invoke (def get_power_state) []
                (<["identity" := VStr c]> kw1) st1
          | ended => ended
          end)
   ∧ ("identity" ∈ params get_power_state →
      (∀ k, is_Some ((∅ : gmap string value) !! k) →
            k ∈ params get_power_state) →
      bind_arguments get_power_state [] kw1
        = Return (kw1 ∪ defaults get_power_state)
      ∧ (outcome r, final r)
        = match body get_power_state (kw1 ∪ defaults get_power_state) lab with
          | (Raise (AliasAccessError c), st1) =>
              body get_power_state
                (<["identity" := VStr c]> (kw1 ∪ defaults get_power_state))
                st1
          | ended => ended
          end))
  ∧ outcome r = Return (VStr "On")
  ∧ kw1 = dict [("self", VRef 0); ("identity", VStr "web-vm")].
Proof.
  split; [|split; reflexivity].
  apply (extra_positionals_discarded get_power_state
           [VRef 0; VStr "web-vm"; VInt 7] ∅ lab).
  simpl. lia.
Defined.
